(** * Mira Soak Station: the configuration flow (config_flow.py)

    A shallow embedding of [SoakStationConfigFlow.async_step_user] and
    [show_selection_form], and the properties of device discovery,
    selection and pairing stated about them.

    Python dictionaries are finite maps ([gmap]); the insertion order a
    Python [dict] also keeps is not observed by any property below.
    Python [str] values are [string]s: the membership test ["Mira" in name]
    looks for a contiguous run of characters, which on UTF-8 encoded text
    is the same as a contiguous run of bytes.  Calls to [logger] change
    neither the value returned nor the flow object and are left out. *)

From Stdlib Require Import String Ascii List ZArith Bool.
From stdpp Require Import base option list strings gmap fin_maps.

Local Open Scope string_scope.

(** ** Python values and exceptions *)

(** The dynamically typed values that reach a configuration entry. *)
Inductive pyval : Type :=
| PyNone
| PyInt (z : Z)
| PyStr (s : string)
| PyBytes (b : list Byte.byte).

(** A raised exception: its class, its argument, and whether the class
    derives from [Exception] (what [except Exception] catches) or only
    from [BaseException] ([asyncio.CancelledError], [KeyboardInterrupt]). *)
Record PyExc : Type := mkExc {
  exc_class : string;
  exc_arg : string;
  is_Exception : bool
}.

Definition KeyError (key : string) : PyExc := mkExc "KeyError" key true.
Definition AttributeError (attr : string) : PyExc := mkExc "AttributeError" attr true.
Definition CancelledError : PyExc := mkExc "CancelledError" "" false.

(** What a call does: it returns a value or raises. *)
Inductive outcome (A : Type) : Type :=
| Returns (a : A)
| Raises (e : PyExc).
Arguments Returns {A} a.
Arguments Raises {A} e.

(** ** Strings *)

(** [needle in hay] on Python strings: some suffix of [hay] starts with
    [needle]. *)
Fixpoint str_in (needle hay : string) : bool :=
  String.prefix needle hay ||
  match hay with
  | EmptyString => false
  | String _ rest => str_in needle rest
  end.

(** Truthiness of a [str]: only the empty string is falsy. *)
Definition str_truthy (s : string) : bool :=
  match s with
  | EmptyString => false
  | String _ _ => true
  end.

(** ASCII lower-casing, used only to state what a case-insensitive match
    would have accepted. *)
Definition ascii_lower (c : ascii) : ascii :=
  let n := nat_of_ascii c in
  if (65 <=? n)%nat && (n <=? 90)%nat then ascii_of_nat (n + 32) else c.

Fixpoint str_lower (s : string) : string :=
  match s with
  | EmptyString => EmptyString
  | String c rest => String (ascii_lower c) (str_lower rest)
  end.

(** ** Discovery *)

(** A scan result ([bleak]'s [BLEDevice]): the address and the advertised
    name, which may be absent. *)
Record BLEDevice : Type := mkDevice {
  address : string;
  name : option string
}.

(** The marker the filter looks for. *)
Definition MARKER : string := "Mira".

(** [device.name or "Unknown"]. *)
Definition name_or_unknown (device : BLEDevice) : string :=
  match name device with
  | Some s => if str_truthy s then s else "Unknown"
  | None => "Unknown"
  end.

(** One iteration of the loop over [devices] (lines 54-58). *)
Definition filter_step (mira_devices : gmap string string) (device : BLEDevice)
  : gmap string string :=
  let nm := name_or_unknown device in
  if str_in MARKER nm then <[address device := nm]> mira_devices else mira_devices.

(** The whole loop, started from the dictionary it is given. *)
Definition filter_loop (mira_devices : gmap string string) (devices : list BLEDevice)
  : gmap string string :=
  foldl filter_step mira_devices devices.

(** The candidate mapping of a scan: the loop run on the empty dictionary. *)
Definition filterCandidates (devices : list BLEDevice) : gmap string string :=
  filter_loop ∅ devices.

(** An entry the filter accepts: its advertised name is present and
    contains the marker. *)
Definition matching (device : BLEDevice) (nm : string) : Prop :=
  name device = Some nm ∧ str_in MARKER nm = true.

(** ** The configuration flow *)

(** Configuration schema keys. *)
Definition CONF_DEVICE : string := "device".
Definition CONF_CLIENT_ID : string := "client_id".
Definition CONF_CLIENT_SLOT : string := "client_slot".

(** [vol.In(container)] and [vol.Required(key)]; a [vol.Schema] built from
    a dictionary literal is the list of its marker/validator pairs. *)
Inductive Validator : Type :=
| vol_In (container : gmap string string).

Inductive Marker : Type :=
| vol_Required (key : string).

Definition Schema : Type := list (Marker * Validator).

(** The three results the flow hands back to the host. *)
Inductive FlowResult : Type :=
| async_abort (reason : string)
| async_show_form (step_id : string) (data_schema : Schema)
                  (errors : gmap string string)
| async_create_entry (title : string) (data : gmap string pyval).

(** The flow object: its only attribute is [_device_options], which does
    not exist until the discovery step has stored it. *)
Record SoakStationConfigFlow : Type := mkFlow {
  _device_options : option (gmap string string)
}.

(** [show_selection_form] (lines 95-112). *)
Definition show_selection_form (errors mira_devices : gmap string string)
  : FlowResult :=
  async_show_form "user"
    [(vol_Required CONF_DEVICE, vol_In mira_devices)]
    errors.

(** The addresses a selection form lets the user choose from. *)
Definition form_options (r : FlowResult) : option (gset string) :=
  match r with
  | async_show_form _ [(vol_Required _, vol_In container)] _ => Some (dom container)
  | _ => None
  end.

Section Flow.

(** What [scanner.discover(timeout=5.0)] yields, and the pairing routine
    [mira.config_helper.config_flow_pairing] applied to [self.hass]: it
    returns the pair [(client_id, client_slot)] or raises.  A scan that
    raises, and a routine that never returns, give the method no result
    and are not part of the model. *)
Variable devices : list BLEDevice.
Variable config_flow_pairing : string → outcome (pyval * pyval).

(** [async_step_user] (lines 30-93): the result, or the exception that
    leaves the method, and the flow object afterwards. *)
Definition async_step_user (self : SoakStationConfigFlow)
    (user_input : option (gmap string string))
  : outcome FlowResult * SoakStationConfigFlow :=
  let errors : gmap string string := ∅ in
  let mira_devices : gmap string string := ∅ in
  match user_input with
  | None =>
      let mira_devices := filter_loop mira_devices devices in
      if decide (mira_devices = ∅) then
        (Returns (async_abort "no_devices_found"), self)
      else
        (Returns (show_selection_form errors mira_devices),
         mkFlow (Some mira_devices))
  | Some user_input =>
      match user_input !! CONF_DEVICE with
      | None => (Raises (KeyError CONF_DEVICE), self)
      | Some device_address =>
          match _device_options self with
          | None => (Raises (AttributeError "_device_options"), self)
          | Some options =>
              match options !! device_address with
              | None => (Raises (KeyError device_address), self)
              | Some device_name =>
                  match config_flow_pairing device_address with
                  | Raises e =>
                      if is_Exception e then
                        let errors := <["base" := "pairing_failed"]> errors in
                        (Returns (show_selection_form errors mira_devices), self)
                      else (Raises e, self)
                  | Returns (client_id, client_slot) =>
                      (Returns
                         (async_create_entry device_name
                            (<["client_slot" := client_slot]>
                               (<["client_id" := client_id]>
                                  (<["device_address" := PyStr device_address]>
                                     (<["device_name" := PyStr device_name]> ∅))))),
                       self)
                  end
              end
          end
      end
  end.

End Flow.

(** ** Vocabulary of the properties *)

(** Scenario A of the specification. *)
Definition scenario_A : list BLEDevice :=
  [mkDevice "AA:BB" (Some "Mira Soak Station 1");
   mkDevice "CC:DD" (Some "Other Device")].

(** The test the loop makes on one entry. *)
Definition accepted (device : BLEDevice) : bool :=
  str_in MARKER (name_or_unknown device).

(** The entry would be written at address [a]. *)
Definition writes_at (a : string) (device : BLEDevice) : bool :=
  accepted device && bool_decide (address device = a).

(** Two entries do not give one address two names. *)
Definition agree (d1 d2 : BLEDevice) : bool :=
  implb (accepted d1 && writes_at (address d1) d2)
        (bool_decide (name_or_unknown d1 = name_or_unknown d2)).

Definition addresses_agree (devices : list BLEDevice) : bool :=
  forallb (λ d1, forallb (agree d1) devices) devices.

(** The result is exactly the address/name pairs of the matching entries. *)
Definition exact_on (devices : list BLEDevice) : Prop :=
  ∀ a nm,
    filterCandidates devices !! a = Some nm ↔
    ∃ device, device ∈ devices ∧ address device = a ∧ matching device nm.

(** Scenario C of the specification: the device hands out a token and
    grants slot 3. *)
Definition scenario_C_pairing (device_address : string) : outcome (pyval * pyval) :=
  Returns (PyInt 48879, PyInt 3).

(** The flow object after a discovery step over Scenario A. *)
Definition after_discovery_A : SoakStationConfigFlow :=
  (async_step_user scenario_A scenario_C_pairing (mkFlow None) None).2.

(** Two failure kinds of the specification's taxonomy, as exceptions. *)
Definition ConnectTimeout : PyExc := mkExc "ConnectTimeout" "AA:BB" true.
Definition NoSlotsAvailable : PyExc := mkExc "NoSlotsAvailable" "AA:BB" true.

(** The flow keeps failure kinds apart: pairing routines that fail with
    exceptions of different classes never lead to the same result. *)
Definition failure_kinds_kept_apart : Prop :=
  ∀ (devices : list BLEDevice) (pairing1 pairing2 : string → outcome (pyval * pyval))
    (self : SoakStationConfigFlow) (user_input options : gmap string string)
    (device_address device_name : string) (e1 e2 : PyExc),
    user_input !! CONF_DEVICE = Some device_address →
    _device_options self = Some options →
    options !! device_address = Some device_name →
    pairing1 device_address = Raises e1 →
    pairing2 device_address = Raises e2 →
    exc_class e1 ≠ exc_class e2 →
    async_step_user devices pairing1 self (Some user_input)
    ≠ async_step_user devices pairing2 self (Some user_input).

(** ** The pairing orchestrator *)

Module Orchestrator.

(** Modelled from the spec: the failure taxonomy of [pair], the entry
    point of the pairing layer (mira.config_helper), whose code is not
    among the sources. *)
Inductive PairingError : Type :=
| ConnectTimeout | DeviceUnreachable | AlreadyConnected | AuthRejected
| ProtocolTimeout | NoSlotsAvailable | ConfirmationFailed | OrphanedSlot
| PairingInProgress | Cancelled.

(** Modelled from the spec: the states of one pairing attempt (the
    state machine of the pairing protocol engine, absent from the
    sources). *)
Inductive State : Type :=
| Idle | Connecting | Authenticating | RequestingSlot | Confirming
| Paired
| Failed (reason : PairingError).

(** Modelled from the spec: what the device, the transport or the
    caller can make happen to an attempt (the events of the transition
    table, absent from the sources). *)
Inductive Event : Type :=
| connected | device_accepts | device_rejects
| slot_index (i : nat) | no_free_slots
| commit_ack | ack_mismatch
| timeout | cancellation.

(** Modelled from the spec: the transition table of the pairing
    protocol engine (absent from the sources); an event that has no row
    for the state leaves it alone. *)
Definition next (s : State) (ev : Event) : State :=
  match s, ev with
  | (Connecting | Authenticating | RequestingSlot | Confirming), cancellation =>
      Failed Cancelled
  | Connecting, connected => Authenticating
  | Connecting, timeout => Failed ConnectTimeout
  | Authenticating, device_accepts => RequestingSlot
  | Authenticating, (device_rejects | timeout) => Failed AuthRejected
  | RequestingSlot, slot_index _ => Confirming
  | RequestingSlot, no_free_slots => Failed NoSlotsAvailable
  | RequestingSlot, timeout => Failed ProtocolTimeout
  | Confirming, commit_ack => Paired
  | Confirming, (ack_mismatch | timeout) => Failed ConfirmationFailed
  | _, _ => s
  end.

(** Modelled from the spec: the states in which the attempt holds an
    open transport session (from a completed connect to the close that
    every terminal state brings), absent from the sources. *)
Definition session_open (s : State) : bool :=
  match s with
  | Authenticating | RequestingSlot | Confirming => true
  | _ => false
  end.

(** Modelled from the spec: the attempt is in flight, from its start to
    its terminal state (absent from the sources). *)
Definition in_flight (s : State) : bool :=
  match s with
  | Connecting | Authenticating | RequestingSlot | Confirming => true
  | _ => false
  end.

(** Modelled from the spec: the orchestrator's shared state (absent
    from the sources): the in-flight address set, and the attempts by
    the identifier of the [pair] call that made them, each with its
    address and state. *)
Record System : Type := mkSystem {
  in_flight_set : gset string;
  calls : gmap nat (string * State)
}.

Definition initial : System := mkSystem ∅ ∅.

(** Modelled from the spec: the atomic actions of the cooperative
    schedule (absent from the sources): a new [pair(address)] call,
    which tests and extends the in-flight set in one mutual-exclusion
    region, and the delivery of an event to a suspended attempt. *)
Inductive Action : Type :=
| call_pair (id : nat) (address : string)
| deliver (id : nat) (ev : Event).

(** Modelled from the spec: one action of the orchestrator (absent from
    the sources).  A call for an address in the in-flight set fails at
    once with [PairingInProgress]; otherwise the address enters the set
    and the attempt starts connecting.  An attempt that reaches a
    terminal state leaves the set. *)
Definition step (sys : System) (act : Action) : System :=
  match act with
  | call_pair id address =>
      match calls sys !! id with
      | Some _ => sys
      | None =>
          if decide (address ∈ in_flight_set sys) then
            mkSystem (in_flight_set sys)
                     (<[id := (address, Failed PairingInProgress)]> (calls sys))
          else
            mkSystem ({[address]} ∪ in_flight_set sys)
                     (<[id := (address, Connecting)]> (calls sys))
      end
  | deliver id ev =>
      match calls sys !! id with
      | Some (address, s) =>
          if in_flight s then
            let s' := next s ev in
            mkSystem
              (if in_flight s' then in_flight_set sys
               else in_flight_set sys ∖ {[address]})
              (<[id := (address, s')]> (calls sys))
          else sys
      | None => sys
      end
  end.

(** Modelled from the spec: any interleaving of actions, from the
    initial state (absent from the sources). *)
Definition run (acts : list Action) : System := foldl step initial acts.

(** What every reachable state satisfies: the address of an attempt in
    flight is in the in-flight set, and no address has two attempts in
    flight. *)
Definition consistent (sys : System) : Prop :=
  (∀ id address s,
     calls sys !! id = Some (address, s) → in_flight s = true →
     address ∈ in_flight_set sys)
  ∧ (∀ id1 id2 address s1 s2,
       calls sys !! id1 = Some (address, s1) →
       calls sys !! id2 = Some (address, s2) →
       in_flight s1 = true → in_flight s2 = true → id1 = id2).

End Orchestrator.

(** ** Repeated calls *)

(** One call of [async_step_user] by the host: what the scan would
    yield and how the pairing routine would answer at that moment, and
    the input submitted. *)
Record Call : Type := mkCall {
  call_devices : list BLEDevice;
  call_pairing : string → outcome (pyval * pyval);
  call_input : option (gmap string string)
}.

Definition call_step (self : SoakStationConfigFlow) (c : Call)
  : outcome FlowResult * SoakStationConfigFlow :=
  async_step_user (call_devices c) (call_pairing c) self (call_input c).

(** A sequence of calls on one flow object: the results in order and the
    object at the end. *)
Fixpoint run_flow (self : SoakStationConfigFlow) (calls : list Call)
  : list (outcome FlowResult) * SoakStationConfigFlow :=
  match calls with
  | [] => ([], self)
  | c :: rest =>
      let '(r, self') := call_step self c in
      let '(rs, self'') := run_flow self' rest in
      (r :: rs, self'')
  end.

(** What [_device_options] holds whenever it exists: a mapping that is
    not empty and whose names all contain the marker. *)
Definition options_marked (self : SoakStationConfigFlow) : Prop :=
  ∀ options, _device_options self = Some options →
    options ≠ ∅ ∧ ∀ a nm, options !! a = Some nm → str_in MARKER nm = true.

(** ** String facts *)

Lemma prefix_true_iff (p s : string) :
  String.prefix p s = true ↔ ∃ post, s = p +:+ post.
Proof.
  revert s. induction p as [|c p IH]; intros s; simpl.
  - split; [intros _; by exists s | by destruct s].
  - destruct s as [|d s]; simpl.
    + split; [done | intros [post H]; discriminate H].
    + destruct (Ascii.ascii_dec c d) as [->|Hne].
      * rewrite IH. split; intros [post H]; exists post.
        -- by rewrite H.
        -- by injection H.
      * split; [done | intros [post H]; injection H; congruence].
Qed.

Lemma str_in_true_iff (needle hay : string) :
  str_in needle hay = true ↔ ∃ pre post, hay = pre +:+ needle +:+ post.
Proof.
  induction hay as [|c hay IH]; cbn [str_in].
  - rewrite orb_false_r, prefix_true_iff. split.
    + intros [post H]. by exists "", post.
    + intros [pre [post H]]. destruct pre; [by exists post | discriminate H].
  - rewrite orb_true_iff, prefix_true_iff, IH. split.
    + intros [[post H] | [pre [post H]]].
      * by exists "", post.
      * exists (String c pre), post. simpl. by rewrite H.
    + intros [pre [post H]]. destruct pre as [|d pre]; simpl in H.
      * left. by exists post.
      * right. injection H as _ H. by exists pre, post.
Qed.

(** ** The filter loop *)

Lemma marker_not_in_unknown : str_in MARKER "Unknown" = false.
Proof. reflexivity. Qed.

Lemma marker_in_truthy (s : string) : str_in MARKER s = true → str_truthy s = true.
Proof. by destruct s. Qed.

Lemma matching_name (device : BLEDevice) (nm : string) :
  matching device nm → name_or_unknown device = nm.
Proof.
  intros [Hname Hin]. unfold name_or_unknown. rewrite Hname.
  by rewrite (marker_in_truthy nm Hin).
Qed.

Lemma accepted_matching (device : BLEDevice) :
  str_in MARKER (name_or_unknown device) = true →
  matching device (name_or_unknown device).
Proof.
  unfold matching, name_or_unknown.
  destruct (name device) as [s|]; [|by rewrite marker_not_in_unknown].
  destruct (str_truthy s); [done | by rewrite marker_not_in_unknown].
Qed.

Lemma filter_step_accept (m : gmap string string) (device : BLEDevice) (nm : string) :
  matching device nm → filter_step m device = <[address device := nm]> m.
Proof.
  intros H. unfold filter_step. rewrite (matching_name _ _ H).
  destruct H as [_ ->]. done.
Qed.

Lemma filter_step_reject (m : gmap string string) (device : BLEDevice) :
  str_in MARKER (name_or_unknown device) = false → filter_step m device = m.
Proof. intros H. unfold filter_step. by rewrite H. Qed.

Lemma filter_step_cases (m : gmap string string) (device : BLEDevice) :
  (∃ nm, matching device nm ∧ filter_step m device = <[address device := nm]> m)
  ∨ ((∀ nm, ¬ matching device nm) ∧ filter_step m device = m).
Proof.
  destruct (str_in MARKER (name_or_unknown device)) eqn:E.
  - left. exists (name_or_unknown device).
    split; [by apply accepted_matching |].
    apply filter_step_accept. by apply accepted_matching.
  - right. split; [| by apply filter_step_reject].
    intros nm H. rewrite <- (matching_name _ _ H) in H.
    destruct H as [_ H]. congruence.
Qed.

Lemma filter_loop_cons (m : gmap string string) (device : BLEDevice) (l : list BLEDevice) :
  filter_loop m (device :: l) = filter_loop (filter_step m device) l.
Proof. reflexivity. Qed.

Lemma filter_loop_app (m : gmap string string) (l1 l2 : list BLEDevice) :
  filter_loop m (l1 ++ l2) = filter_loop (filter_loop m l1) l2.
Proof. unfold filter_loop. apply foldl_app. Qed.

(** Entries that do not match, or that match at another address, leave
    the binding of an address alone. *)
Lemma filter_loop_untouched (m : gmap string string) (l : list BLEDevice) (a : string) :
  (∀ device nm, device ∈ l → matching device nm → address device ≠ a) →
  filter_loop m l !! a = m !! a.
Proof.
  revert m. induction l as [|d l IH]; intros m Hno; [done |].
  rewrite filter_loop_cons, IH.
  - destruct (filter_step_cases m d) as [[nm [Hm ->]] | [_ ->]]; [| done].
    apply lookup_insert_ne. eapply Hno; [apply list_elem_of_here | done].
  - intros d' nm Hin. apply Hno. by apply list_elem_of_further.
Qed.

(** Every binding of the result was in the starting dictionary or comes
    from a matching scan entry. *)
Lemma filter_loop_sound (m : gmap string string) (l : list BLEDevice) (a nm : string) :
  filter_loop m l !! a = Some nm →
  m !! a = Some nm ∨ ∃ device, device ∈ l ∧ address device = a ∧ matching device nm.
Proof.
  revert m. induction l as [|d l IH]; intros m H; [by left |].
  rewrite filter_loop_cons in H. apply IH in H as [H | [d' [Hin [Ha Hm]]]].
  - destruct (filter_step_cases m d) as [[nm' [Hm Heq]] | [_ Heq]];
      rewrite Heq in H; [| by left].
    destruct (decide (address d = a)) as [Ha | Ha].
    + rewrite Ha, lookup_insert_eq in H. injection H as <-.
      right. exists d. split; [apply list_elem_of_here | done].
    + rewrite lookup_insert_ne in H by done. by left.
  - right. exists d'. split; [by apply list_elem_of_further | done].
Qed.

(** A bound address stays bound. *)
Lemma filter_loop_keeps (m : gmap string string) (l : list BLEDevice) (a : string) :
  is_Some (m !! a) → is_Some (filter_loop m l !! a).
Proof.
  revert m. induction l as [|d l IH]; intros m H; [done |].
  rewrite filter_loop_cons. apply IH.
  destruct (filter_step_cases m d) as [[nm [_ ->]] | [_ ->]]; [| done].
  destruct (decide (address d = a)) as [<- | Ha].
  - rewrite lookup_insert_eq. by eexists.
  - by rewrite lookup_insert_ne.
Qed.

(** The address of every matching scan entry is bound in the result. *)
Lemma filter_loop_bound (m : gmap string string) (l : list BLEDevice)
    (device : BLEDevice) (nm : string) :
  device ∈ l → matching device nm → is_Some (filter_loop m l !! address device).
Proof.
  revert m. induction l as [|d l IH]; intros m Hin Hm.
  - by apply not_elem_of_nil in Hin.
  - rewrite filter_loop_cons. apply elem_of_cons in Hin as [<- | Hin].
    + apply filter_loop_keeps. rewrite (filter_step_accept _ _ _ Hm).
      rewrite lookup_insert_eq. by eexists.
    + by apply IH.
Qed.

Lemma accepted_iff (device : BLEDevice) :
  accepted device = true ↔ ∃ nm, matching device nm.
Proof.
  split.
  - intros H. exists (name_or_unknown device). by apply accepted_matching.
  - intros [nm H]. unfold accepted. rewrite (matching_name _ _ H). by destruct H.
Qed.

Lemma writes_at_none (a : string) (l : list BLEDevice) :
  existsb (writes_at a) l = false →
  ∀ device nm, device ∈ l → matching device nm → address device ≠ a.
Proof.
  intros H device nm Hin Hm Ha.
  assert (existsb (writes_at a) l = true) as Hex; [| congruence].
  apply existsb_exists. exists device. split; [by apply list_elem_of_In |].
  unfold writes_at. apply andb_true_iff. split.
  - apply accepted_iff. by exists nm.
  - by apply bool_decide_eq_true.
Qed.

Lemma addresses_agree_spec (devices : list BLEDevice) :
  addresses_agree devices = true →
  ∀ d1 d2 n1 n2, d1 ∈ devices → d2 ∈ devices →
    matching d1 n1 → matching d2 n2 → address d1 = address d2 → n1 = n2.
Proof.
  intros H d1 d2 n1 n2 Hin1 Hin2 Hm1 Hm2 Ha.
  unfold addresses_agree in H. rewrite forallb_forall in H.
  specialize (H d1 (proj1 (list_elem_of_In _ _) Hin1)).
  rewrite forallb_forall in H.
  specialize (H d2 (proj1 (list_elem_of_In _ _) Hin2)).
  unfold agree, writes_at in H.
  rewrite (proj2 (accepted_iff d1) (ex_intro _ n1 Hm1)) in H.
  rewrite (proj2 (accepted_iff d2) (ex_intro _ n2 Hm2)) in H.
  rewrite (bool_decide_eq_true_2 _ (eq_sym Ha)) in H. simpl in H.
  apply bool_decide_eq_true in H.
  by rewrite <- (matching_name _ _ Hm1), <- (matching_name _ _ Hm2).
Qed.

Lemma filterCandidates_sound (devices : list BLEDevice) (a nm : string) :
  filterCandidates devices !! a = Some nm →
  ∃ device, device ∈ devices ∧ address device = a ∧ matching device nm.
Proof.
  intros H. apply filter_loop_sound in H as [H | H]; [| done].
  by rewrite lookup_empty in H.
Qed.

(** ** Properties of discovery *)

(** C1, as stated, fails: when two matching entries carry one address
    under different names, the earlier entry is a matching scan entry
    whose address/name pair is not in the result. *)
Lemma filterCandidates_not_exact_on_repeated_address :
  ¬ exact_on [mkDevice "AA:BB" (Some "Mira 1"); mkDevice "AA:BB" (Some "Mira 2")].
Proof.
  intros H.
  assert (filterCandidates
            [mkDevice "AA:BB" (Some "Mira 1"); mkDevice "AA:BB" (Some "Mira 2")]
            !! "AA:BB" = Some "Mira 1") as Hfirst; [| discriminate Hfirst].
  apply H. exists (mkDevice "AA:BB" (Some "Mira 1")).
  split; [apply list_elem_of_here | done].
Qed.

(** C1 (amended): for every scan, each binding of the candidate mapping
    is the address/name pair of a scan entry whose advertised name
    contains "Mira", and the address of every such entry is bound; when no
    two matching entries give one address two different names, the
    mapping is exactly the set of address/name pairs of the matching
    entries.  On Scenario A the result is exactly
    {"AA:BB": "Mira Soak Station 1"}. *)
Theorem filterCandidates_exact_when_addresses_agree (devices : list BLEDevice) :
  (∀ a nm, filterCandidates devices !! a = Some nm →
     ∃ device, device ∈ devices ∧ address device = a ∧ matching device nm)
  ∧ (∀ device nm, device ∈ devices → matching device nm →
       is_Some (filterCandidates devices !! address device))
  ∧ (addresses_agree devices = true → exact_on devices)
  ∧ filterCandidates scenario_A = {[ "AA:BB" := "Mira Soak Station 1" ]}.
Proof.
  split; [apply filterCandidates_sound |].
  split; [intros device nm; apply filter_loop_bound |].
  split; [| reflexivity].
  intros Hagree a nm. split; [apply filterCandidates_sound |].
  intros [device [Hin [<- Hm]]].
  destruct (filter_loop_bound ∅ devices device nm Hin Hm) as [nm' Hnm'].
  fold (filterCandidates devices) in Hnm'. rewrite Hnm'. f_equal.
  destruct (filterCandidates_sound _ _ _ Hnm') as [device' [Hin' [Ha' Hm']]].
  exact (addresses_agree_spec devices Hagree device' device nm' nm Hin' Hin Hm' Hm Ha').
Qed.

Lemma filterCandidates_exact_on_scenario_A :
  addresses_agree scenario_A = true ∧ exact_on scenario_A.
Proof.
  split; [reflexivity |].
  apply (filterCandidates_exact_when_addresses_agree scenario_A). reflexivity.
Defined.

(** C6: the match is case-sensitive.  There is an advertised name that
    contains the marker up to letter case ("mira shower") which the filter
    drops, while the same name spelled with "Mira" is kept. *)
Theorem marker_match_is_case_sensitive :
  ∃ a other exact : string,
    str_lower other = str_lower exact
    ∧ str_in (str_lower MARKER) (str_lower other) = true
    ∧ filterCandidates [mkDevice a (Some other)] = ∅
    ∧ filterCandidates [mkDevice a (Some exact)] = {[ a := exact ]}.
Proof. exists "AA:BB", "mira shower", "Mira shower". repeat split. Qed.

(** C8: an entry without an advertised name is given the name "Unknown",
    is never written to the candidate mapping, and so changes nothing:
    the mapping is that of the scan with the nameless entries removed,
    and every binding of it comes from an entry whose name is present. *)
Theorem nameless_entries_are_never_candidates (devices : list BLEDevice) :
  (∀ device, name device = None →
     name_or_unknown device = "Unknown" ∧ accepted device = false
     ∧ ∀ mira_devices, filter_step mira_devices device = mira_devices)
  ∧ filterCandidates devices
    = filterCandidates (filter (λ device, is_Some (name device)) devices)
  ∧ (∀ a nm, filterCandidates devices !! a = Some nm →
       ∃ device, device ∈ devices ∧ address device = a ∧ name device = Some nm).
Proof.
  assert (∀ device, name device = None → name_or_unknown device = "Unknown")
    as Hunknown by (intros device H; unfold name_or_unknown; by rewrite H).
  assert (∀ device, name device = None → accepted device = false)
    as Hdrop by (intros device H; unfold accepted; by rewrite Hunknown).
  split; [| split].
  - intros device H. repeat split; [by apply Hunknown | by apply Hdrop |].
    intros m. apply filter_step_reject. by apply Hdrop.
  - unfold filterCandidates. generalize (∅ : gmap string string).
    induction devices as [|d l IH]; intros m; [done |].
    rewrite filter_loop_cons. destruct (name d) as [s|] eqn:E.
    + rewrite filter_cons_True by (rewrite E; by eexists).
      rewrite filter_loop_cons. apply IH.
    + rewrite filter_cons_False by (rewrite E; by intros [? ?]).
      rewrite (filter_step_reject m d) by (by apply Hdrop). apply IH.
  - intros a nm H. apply filterCandidates_sound in H as [device [Hin [Ha [Hn _]]]].
    by exists device.
Qed.

(** C10: the candidate mapping binds each address at most once, and of
    two matching entries with one address the later one decides the name:
    when no entry after it is written at that address, the address is
    bound to the later entry's name. *)
Theorem later_entry_overwrites_earlier (pre mid post : list BLEDevice)
    (a n1 n2 : string) :
  str_in MARKER n1 = true →
  str_in MARKER n2 = true →
  existsb (writes_at a) post = false →
  filterCandidates
    (pre ++ mkDevice a (Some n1) :: mid ++ mkDevice a (Some n2) :: post) !! a
  = Some n2
  ∧ NoDup (map_to_list (filterCandidates
      (pre ++ mkDevice a (Some n1) :: mid ++ mkDevice a (Some n2) :: post))).*1.
Proof.
  intros _ H2 Hpost. split; [| apply NoDup_fst_map_to_list].
  unfold filterCandidates.
  rewrite filter_loop_app, filter_loop_cons, filter_loop_app, filter_loop_cons.
  rewrite (filter_loop_untouched _ post a (writes_at_none a post Hpost)).
  rewrite (filter_step_accept _ (mkDevice a (Some n2)) n2) by done.
  apply lookup_insert_eq.
Qed.

Lemma later_entry_overwrites_earlier_witness :
  filterCandidates
    ([] ++ mkDevice "AA:BB" (Some "Mira 1") ::
       [] ++ mkDevice "AA:BB" (Some "Mira 2") :: []) !! "AA:BB"
  = Some "Mira 2"
  ∧ NoDup (map_to_list (filterCandidates
      ([] ++ mkDevice "AA:BB" (Some "Mira 1") ::
         [] ++ mkDevice "AA:BB" (Some "Mira 2") :: []))).*1.
Proof.
  apply (later_entry_overwrites_earlier [] [] [] "AA:BB" "Mira 1" "Mira 2");
    reflexivity.
Defined.

(** ** Properties of the flow *)

Section FlowProperties.

Variable devices : list BLEDevice.
Variable config_flow_pairing : string → outcome (pyval * pyval).

Abbreviation step := (async_step_user devices config_flow_pairing).

(** The selection branch up to the pairing call: the lookups of lines
    69-70 succeed. *)
Lemma step_selected (self : SoakStationConfigFlow)
    (user_input options : gmap string string) (device_address device_name : string) :
  user_input !! CONF_DEVICE = Some device_address →
  _device_options self = Some options →
  options !! device_address = Some device_name →
  step self (Some user_input) =
    match config_flow_pairing device_address with
    | Raises e =>
        if is_Exception e then
          (Returns (show_selection_form {["base" := "pairing_failed"]} ∅), self)
        else (Raises e, self)
    | Returns (client_id, client_slot) =>
        (Returns
           (async_create_entry device_name
              (<["client_slot" := client_slot]>
                 (<["client_id" := client_id]>
                    (<["device_address" := PyStr device_address]>
                       (<["device_name" := PyStr device_name]> ∅))))),
         self)
    end.
Proof.
  intros Hui Hopt Hname. unfold async_step_user.
  rewrite Hui, Hopt, Hname. reflexivity.
Qed.

(** The discovery branch when something matched: the form offers the
    candidates and the flow object records them. *)
Lemma step_discovered (self : SoakStationConfigFlow) :
  filterCandidates devices ≠ ∅ →
  step self None =
    (Returns (show_selection_form ∅ (filterCandidates devices)),
     mkFlow (Some (filterCandidates devices))).
Proof.
  intros H. unfold async_step_user. fold (filterCandidates devices).
  by rewrite decide_False.
Qed.

End FlowProperties.

(** C4: when no scan entry passes the filter (the empty scan included),
    the discovery step aborts with reason "no_devices_found"; it shows no
    form and creates no entry, and the flow object is left as it was. *)
Theorem empty_candidates_abort (devices : list BLEDevice)
    (config_flow_pairing : string → outcome (pyval * pyval))
    (self : SoakStationConfigFlow) :
  filterCandidates devices = ∅ →
  async_step_user devices config_flow_pairing self None
  = (Returns (async_abort "no_devices_found"), self)
  ∧ async_step_user [] config_flow_pairing self None
    = (Returns (async_abort "no_devices_found"), self).
Proof.
  intros H. split; [| reflexivity].
  unfold async_step_user. fold (filterCandidates devices).
  by rewrite decide_True.
Qed.

Lemma empty_candidates_abort_witness :
  async_step_user [mkDevice "CC:DD" (Some "Other Device"); mkDevice "EE:FF" None]
    (λ _, Raises CancelledError) (mkFlow None) None
  = (Returns (async_abort "no_devices_found"), mkFlow None)
  ∧ async_step_user [] (λ _, Raises CancelledError) (mkFlow None) None
    = (Returns (async_abort "no_devices_found"), mkFlow None).
Proof.
  apply (empty_candidates_abort
           [mkDevice "CC:DD" (Some "Other Device"); mkDevice "EE:FF" None]).
  reflexivity.
Defined.

(** C2: when the pairing routine returns [(client_id, client_slot)] for
    the selected address, the flow creates an entry titled with the name
    recorded for that address, whose data has exactly the four keys
    device_name, device_address, client_id and client_slot: the recorded
    name, the selected address, and the two values the routine returned,
    unchanged. *)
Theorem successful_pairing_creates_entry (devices : list BLEDevice)
    (config_flow_pairing : string → outcome (pyval * pyval))
    (self : SoakStationConfigFlow) (user_input options : gmap string string)
    (device_address device_name : string) (client_id client_slot : pyval) :
  user_input !! CONF_DEVICE = Some device_address →
  _device_options self = Some options →
  options !! device_address = Some device_name →
  config_flow_pairing device_address = Returns (client_id, client_slot) →
  ∃ data : gmap string pyval,
    async_step_user devices config_flow_pairing self (Some user_input)
    = (Returns (async_create_entry device_name data), self)
    ∧ dom data = {[ "device_name"; "device_address"; "client_id"; "client_slot" ]}
    ∧ data !! "device_name" = Some (PyStr device_name)
    ∧ data !! "device_address" = Some (PyStr device_address)
    ∧ data !! CONF_CLIENT_ID = Some client_id
    ∧ data !! CONF_CLIENT_SLOT = Some client_slot.
Proof.
  intros Hui Hopt Hname Hpair.
  rewrite (step_selected _ _ _ _ _ _ _ Hui Hopt Hname), Hpair.
  eexists. split; [reflexivity |].
  split; [rewrite !dom_insert_L, dom_empty_L; set_solver |].
  repeat split.
Qed.

Lemma successful_pairing_creates_entry_witness :
  ∃ data : gmap string pyval,
    async_step_user [] scenario_C_pairing after_discovery_A
      (Some {[ CONF_DEVICE := "AA:BB" ]})
    = (Returns (async_create_entry "Mira Soak Station 1" data), after_discovery_A)
    ∧ dom data = {[ "device_name"; "device_address"; "client_id"; "client_slot" ]}
    ∧ data !! "device_name" = Some (PyStr "Mira Soak Station 1")
    ∧ data !! "device_address" = Some (PyStr "AA:BB")
    ∧ data !! CONF_CLIENT_ID = Some (PyInt 48879)
    ∧ data !! CONF_CLIENT_SLOT = Some (PyInt 3).
Proof.
  apply (successful_pairing_creates_entry [] scenario_C_pairing after_discovery_A
           {[ CONF_DEVICE := "AA:BB" ]} (filterCandidates scenario_A)
           "AA:BB" "Mira Soak Station 1" (PyInt 48879) (PyInt 3));
    reflexivity.
Defined.

(** C3: when the pairing routine raises, the flow creates no entry and
    leaves the flow object as it was, whatever was raised; when what was
    raised is an exception in the sense of the handler ([except
    Exception]), the flow returns the selection form again with the error
    "pairing_failed" under "base". *)
Theorem failed_pairing_creates_no_entry (devices : list BLEDevice)
    (config_flow_pairing : string → outcome (pyval * pyval))
    (self : SoakStationConfigFlow) (user_input options : gmap string string)
    (device_address device_name : string) (e : PyExc) :
  user_input !! CONF_DEVICE = Some device_address →
  _device_options self = Some options →
  options !! device_address = Some device_name →
  config_flow_pairing device_address = Raises e →
  (∀ title data,
     (async_step_user devices config_flow_pairing self (Some user_input)).1
     ≠ Returns (async_create_entry title data))
  ∧ (async_step_user devices config_flow_pairing self (Some user_input)).2 = self
  ∧ (is_Exception e = true →
     async_step_user devices config_flow_pairing self (Some user_input)
     = (Returns (show_selection_form {[ "base" := "pairing_failed" ]} ∅), self)).
Proof.
  intros Hui Hopt Hname Hpair.
  rewrite (step_selected _ _ _ _ _ _ _ Hui Hopt Hname), Hpair.
  destruct (is_Exception e); (split; [by intros title data |]);
    by (split; [done |]).
Qed.

Lemma failed_pairing_creates_no_entry_witness :
  (∀ title data,
     (async_step_user [] (λ _, Raises ConnectTimeout) after_discovery_A
        (Some {[ CONF_DEVICE := "AA:BB" ]})).1
     ≠ Returns (async_create_entry title data))
  ∧ (async_step_user [] (λ _, Raises ConnectTimeout) after_discovery_A
       (Some {[ CONF_DEVICE := "AA:BB" ]})).2 = after_discovery_A
  ∧ (is_Exception ConnectTimeout = true →
     async_step_user [] (λ _, Raises ConnectTimeout) after_discovery_A
       (Some {[ CONF_DEVICE := "AA:BB" ]})
     = (Returns (show_selection_form {[ "base" := "pairing_failed" ]} ∅),
        after_discovery_A)).
Proof.
  apply (failed_pairing_creates_no_entry [] (λ _, Raises ConnectTimeout)
           after_discovery_A {[ CONF_DEVICE := "AA:BB" ]}
           (filterCandidates scenario_A) "AA:BB" "Mira Soak Station 1"
           ConnectTimeout);
    reflexivity.
Defined.

(** C5, as stated, fails: a connect timeout and an exhausted slot table
    lead to one and the same result. *)
Lemma failure_kinds_are_collapsed : ¬ failure_kinds_kept_apart.
Proof.
  intros H.
  apply (H [] (λ _, Raises ConnectTimeout) (λ _, Raises NoSlotsAvailable)
           after_discovery_A {[ CONF_DEVICE := "AA:BB" ]}
           (filterCandidates scenario_A) "AA:BB" "Mira Soak Station 1"
           ConnectTimeout NoSlotsAvailable);
    try reflexivity.
  discriminate.
Qed.

(** C5 (amended): every failure of the pairing routine that the handler
    catches is turned into the one signal "pairing_failed" on the
    re-shown form, whatever its kind: two such failures give the same
    result.  What the handler does not catch leaves the method as it was
    raised. *)
Theorem caught_failures_give_one_signal (devices : list BLEDevice)
    (pairing1 pairing2 : string → outcome (pyval * pyval))
    (self : SoakStationConfigFlow) (user_input options : gmap string string)
    (device_address device_name : string) (e1 e2 : PyExc) :
  user_input !! CONF_DEVICE = Some device_address →
  _device_options self = Some options →
  options !! device_address = Some device_name →
  pairing1 device_address = Raises e1 →
  pairing2 device_address = Raises e2 →
  (is_Exception e1 = true → is_Exception e2 = true →
   async_step_user devices pairing1 self (Some user_input)
   = async_step_user devices pairing2 self (Some user_input)
   ∧ async_step_user devices pairing1 self (Some user_input)
     = (Returns (show_selection_form {[ "base" := "pairing_failed" ]} ∅), self))
  ∧ (is_Exception e1 = false →
     async_step_user devices pairing1 self (Some user_input) = (Raises e1, self)).
Proof.
  intros Hui Hopt Hname H1 H2.
  rewrite !(step_selected _ _ _ _ _ _ _ Hui Hopt Hname), H1, H2.
  split.
  - by intros -> ->.
  - by intros ->.
Qed.

Lemma caught_failures_give_one_signal_witness :
  (is_Exception ConnectTimeout = true → is_Exception NoSlotsAvailable = true →
   async_step_user [] (λ _, Raises ConnectTimeout) after_discovery_A
     (Some {[ CONF_DEVICE := "AA:BB" ]})
   = async_step_user [] (λ _, Raises NoSlotsAvailable) after_discovery_A
       (Some {[ CONF_DEVICE := "AA:BB" ]})
   ∧ async_step_user [] (λ _, Raises ConnectTimeout) after_discovery_A
       (Some {[ CONF_DEVICE := "AA:BB" ]})
     = (Returns (show_selection_form {[ "base" := "pairing_failed" ]} ∅),
        after_discovery_A))
  ∧ (is_Exception ConnectTimeout = false →
     async_step_user [] (λ _, Raises ConnectTimeout) after_discovery_A
       (Some {[ CONF_DEVICE := "AA:BB" ]})
     = (Raises ConnectTimeout, after_discovery_A)).
Proof.
  apply (caught_failures_give_one_signal [] (λ _, Raises ConnectTimeout)
           (λ _, Raises NoSlotsAvailable) after_discovery_A
           {[ CONF_DEVICE := "AA:BB" ]} (filterCandidates scenario_A)
           "AA:BB" "Mira Soak Station 1" ConnectTimeout NoSlotsAvailable);
    reflexivity.
Defined.

(** C9: when a selection is submitted and pairing fails with an exception
    the handler catches, the form shown again is built from the local
    dictionary, which is empty in that invocation: it offers no address
    to choose from, although the devices found at discovery are still
    held, unchanged and not empty, in [_device_options]. *)
Theorem reshown_form_offers_nothing (devices : list BLEDevice)
    (config_flow_pairing : string → outcome (pyval * pyval))
    (self : SoakStationConfigFlow) (user_input options : gmap string string)
    (device_address device_name : string) (e : PyExc) :
  user_input !! CONF_DEVICE = Some device_address →
  _device_options self = Some options →
  options !! device_address = Some device_name →
  config_flow_pairing device_address = Raises e →
  is_Exception e = true →
  ∃ r self',
    async_step_user devices config_flow_pairing self (Some user_input)
    = (Returns r, self')
    ∧ r = show_selection_form {[ "base" := "pairing_failed" ]} ∅
    ∧ form_options r = Some ∅
    ∧ _device_options self' = Some options
    ∧ options ≠ ∅.
Proof.
  intros Hui Hopt Hname Hpair He.
  rewrite (step_selected _ _ _ _ _ _ _ Hui Hopt Hname), Hpair, He.
  eexists _, _. split; [reflexivity |].
  repeat split; [done |].
  intros ->. by rewrite lookup_empty in Hname.
Qed.

Lemma reshown_form_offers_nothing_witness :
  ∃ r self',
    async_step_user [] (λ _, Raises NoSlotsAvailable) after_discovery_A
      (Some {[ CONF_DEVICE := "AA:BB" ]})
    = (Returns r, self')
    ∧ r = show_selection_form {[ "base" := "pairing_failed" ]} ∅
    ∧ form_options r = Some ∅
    ∧ _device_options self' = Some (filterCandidates scenario_A)
    ∧ filterCandidates scenario_A ≠ ∅.
Proof.
  apply (reshown_form_offers_nothing [] (λ _, Raises NoSlotsAvailable)
           after_discovery_A {[ CONF_DEVICE := "AA:BB" ]}
           (filterCandidates scenario_A) "AA:BB" "Mira Soak Station 1"
           NoSlotsAvailable);
    reflexivity.
Defined.

(** ** Properties of the pairing orchestrator *)

Lemma orchestrator_initial_consistent : Orchestrator.consistent Orchestrator.initial.
Proof. split; intros *; simpl; by rewrite lookup_empty. Qed.

Lemma orchestrator_step_consistent (sys : Orchestrator.System) (act : Orchestrator.Action) :
  Orchestrator.consistent sys → Orchestrator.consistent (Orchestrator.step sys act).
Proof.
  intros [Hset Hone]. destruct act as [id address | id ev]; simpl.
  - destruct (Orchestrator.calls sys !! id) as [c|] eqn:Hid; [by split |].
    destruct (decide (address ∈ Orchestrator.in_flight_set sys)) as [Hin | Hnin];
      split; simpl.
    + intros id' a s H Hs. destruct (decide (id = id')) as [<- | Hne].
      * rewrite lookup_insert_eq in H. by simplify_eq.
      * rewrite lookup_insert_ne in H by done. by eapply Hset.
    + intros id1 id2 a s1 s2 H1 H2 Hs1 Hs2.
      destruct (decide (id = id1)) as [<- | Hne1].
      { rewrite lookup_insert_eq in H1. by simplify_eq. }
      destruct (decide (id = id2)) as [<- | Hne2].
      { rewrite lookup_insert_eq in H2. by simplify_eq. }
      rewrite lookup_insert_ne in H1, H2 by done. by eapply Hone.
    + intros id' a s H Hs. destruct (decide (id = id')) as [<- | Hne].
      * rewrite lookup_insert_eq in H. simplify_eq. set_solver.
      * rewrite lookup_insert_ne in H by done.
        apply elem_of_union_r. by eapply Hset.
    + intros id1 id2 a s1 s2 H1 H2 Hs1 Hs2.
      destruct (decide (id = id1)) as [<- | Hne1];
        destruct (decide (id = id2)) as [<- | Hne2]; [done | | |].
      * rewrite lookup_insert_eq in H1. rewrite lookup_insert_ne in H2 by done.
        simplify_eq. destruct Hnin. by eapply Hset.
      * rewrite lookup_insert_eq in H2. rewrite lookup_insert_ne in H1 by done.
        simplify_eq. destruct Hnin. by eapply Hset.
      * rewrite lookup_insert_ne in H1, H2 by done. by eapply Hone.
  - destruct (Orchestrator.calls sys !! id) as [[address s]|] eqn:Hid; [| by split].
    destruct (Orchestrator.in_flight s) eqn:Hs; [| by split].
    split; simpl.
    + intros id' a s' H Hs'. destruct (decide (id = id')) as [<- | Hne].
      * rewrite lookup_insert_eq in H. simplify_eq. rewrite Hs'. by eapply Hset.
      * rewrite lookup_insert_ne in H by done.
        assert (a ∈ Orchestrator.in_flight_set sys) as Ha by (by eapply Hset).
        destruct (Orchestrator.in_flight (Orchestrator.next s ev)); [done |].
        apply elem_of_difference. split; [done |].
        intros ->%elem_of_singleton. apply Hne.
        by eapply (Hone id id' address s s').
    + intros id1 id2 a s1 s2 H1 H2 Hs1 Hs2.
      destruct (decide (id = id1)) as [<- | Hne1];
        destruct (decide (id = id2)) as [<- | Hne2]; [done | | |].
      * rewrite lookup_insert_eq in H1. rewrite lookup_insert_ne in H2 by done.
        simplify_eq. by eapply (Hone id id2 a s s2).
      * rewrite lookup_insert_eq in H2. rewrite lookup_insert_ne in H1 by done.
        simplify_eq. by eapply (Hone id1 id a s1 s).
      * rewrite lookup_insert_ne in H1, H2 by done. by eapply Hone.
Qed.

Lemma orchestrator_run_snoc (acts : list Orchestrator.Action) (act : Orchestrator.Action) :
  Orchestrator.run (acts ++ [act]) = Orchestrator.step (Orchestrator.run acts) act.
Proof. unfold Orchestrator.run. by rewrite foldl_app. Qed.

Lemma orchestrator_run_consistent (acts : list Orchestrator.Action) :
  Orchestrator.consistent (Orchestrator.run acts).
Proof.
  induction acts as [|act acts IH] using rev_ind.
  - apply orchestrator_initial_consistent.
  - rewrite orchestrator_run_snoc. by apply orchestrator_step_consistent.
Qed.

Lemma session_open_in_flight (s : Orchestrator.State) :
  Orchestrator.session_open s = true → Orchestrator.in_flight s = true.
Proof. by destruct s. Qed.

Lemma orchestrator_run_app (acts acts' : list Orchestrator.Action) :
  Orchestrator.run (acts ++ acts') = foldl Orchestrator.step (Orchestrator.run acts) acts'.
Proof. unfold Orchestrator.run. by rewrite foldl_app. Qed.

(** An attempt that is over is never touched again. *)
Lemma orchestrator_over_is_final (acts : list Orchestrator.Action)
    (sys : Orchestrator.System) (id : nat) (address : string) (s : Orchestrator.State) :
  Orchestrator.calls sys !! id = Some (address, s) →
  Orchestrator.in_flight s = false →
  Orchestrator.calls (foldl Orchestrator.step sys acts) !! id = Some (address, s).
Proof.
  revert sys. induction acts as [|act acts IH]; intros sys Hid Hs; [done |].
  simpl. apply IH; [| done].
  destruct act as [id' a | id' ev]; simpl.
  - destruct (decide (id' = id)) as [-> | Hne]; [by rewrite Hid |].
    destruct (Orchestrator.calls sys !! id'); [done |].
    destruct (decide (a ∈ Orchestrator.in_flight_set sys)); simpl;
      by rewrite lookup_insert_ne.
  - destruct (decide (id' = id)) as [-> | Hne]; [by rewrite Hid, Hs |].
    destruct (Orchestrator.calls sys !! id') as [[a s']|]; [| done].
    destruct (Orchestrator.in_flight s'); [| done].
    simpl. by rewrite lookup_insert_ne.
Qed.

(** C7: in every interleaving of [pair] calls and events, no address has
    two attempts holding an open transport session; and a [pair] call for
    an address that has an attempt in flight fails at once with
    [PairingInProgress]: it does not enter the in-flight set, it disturbs
    no other attempt, and it is never started later. *)
Theorem one_open_session_per_address (acts : list Orchestrator.Action) :
  (∀ id1 id2 address s1 s2,
     Orchestrator.calls (Orchestrator.run acts) !! id1 = Some (address, s1) →
     Orchestrator.calls (Orchestrator.run acts) !! id2 = Some (address, s2) →
     Orchestrator.session_open s1 = true →
     Orchestrator.session_open s2 = true →
     id1 = id2)
  ∧ (∀ id0 id address s0 later,
       Orchestrator.calls (Orchestrator.run acts) !! id0 = Some (address, s0) →
       Orchestrator.in_flight s0 = true →
       Orchestrator.calls (Orchestrator.run acts) !! id = None →
       Orchestrator.calls
         (Orchestrator.run (acts ++ Orchestrator.call_pair id address :: later)) !! id
       = Some (address, Orchestrator.Failed Orchestrator.PairingInProgress)
       ∧ Orchestrator.in_flight_set
           (Orchestrator.run (acts ++ [Orchestrator.call_pair id address]))
         = Orchestrator.in_flight_set (Orchestrator.run acts)
       ∧ ∀ id', id' ≠ id →
           Orchestrator.calls
             (Orchestrator.run (acts ++ [Orchestrator.call_pair id address])) !! id'
           = Orchestrator.calls (Orchestrator.run acts) !! id').
Proof.
  destruct (orchestrator_run_consistent acts) as [Hset Hone]. split.
  - intros id1 id2 address s1 s2 H1 H2 Hs1 Hs2.
    eapply Hone; eauto using session_open_in_flight.
  - intros id0 id address s0 later H0 Hs0 Hfresh.
    assert (address ∈ Orchestrator.in_flight_set (Orchestrator.run acts)) as Hin
      by (by eapply Hset).
    assert (Orchestrator.step (Orchestrator.run acts) (Orchestrator.call_pair id address)
            = Orchestrator.mkSystem
                (Orchestrator.in_flight_set (Orchestrator.run acts))
                (<[id := (address, Orchestrator.Failed Orchestrator.PairingInProgress)]>
                   (Orchestrator.calls (Orchestrator.run acts)))) as Hstep.
    { simpl. rewrite Hfresh. by rewrite decide_True. }
    split; [| split].
    + rewrite orchestrator_run_app. cbn [foldl]. apply orchestrator_over_is_final; [| done].
      rewrite Hstep. simpl. apply lookup_insert_eq.
    + by rewrite orchestrator_run_snoc, Hstep.
    + intros id' Hne. rewrite orchestrator_run_snoc, Hstep. simpl.
      by rewrite lookup_insert_ne.
Qed.

Lemma one_open_session_per_address_witness :
  Orchestrator.calls
    (Orchestrator.run
       ([Orchestrator.call_pair 0 "AA:BB"; Orchestrator.deliver 0 Orchestrator.connected]
          ++ Orchestrator.call_pair 1 "AA:BB"
          :: [Orchestrator.deliver 1 Orchestrator.connected])) !! 1
  = Some ("AA:BB", Orchestrator.Failed Orchestrator.PairingInProgress).
Proof.
  apply (proj2 (one_open_session_per_address
                  [Orchestrator.call_pair 0 "AA:BB";
                   Orchestrator.deliver 0 Orchestrator.connected])
           0 1 "AA:BB" Orchestrator.Authenticating
           [Orchestrator.deliver 1 Orchestrator.connected]);
    reflexivity.
Defined.

(** ** Further properties of the filter loop *)

(** X1: an entry passes the test of lines 55-56 exactly when its
    advertised name is present and has the form pre ++ "Mira" ++ post; an
    absent or empty name never passes. *)
Theorem accepted_iff_name_contains_marker (device : BLEDevice) :
  (accepted device = true ↔
   ∃ pre post, name device = Some (pre +:+ "Mira" +:+ post))
  ∧ (name device = None ∨ name device = Some "" → accepted device = false).
Proof.
  split.
  - rewrite accepted_iff. split.
    + intros [nm [Hname Hin]]. apply str_in_true_iff in Hin as [pre [post ->]].
      by exists pre, post.
    + intros [pre [post H]]. exists (pre +:+ "Mira" +:+ post). split; [done |].
      apply str_in_true_iff. by exists pre, post.
  - unfold accepted, name_or_unknown. by intros [-> | ->].
Qed.

Lemma filter_loop_union (m : gmap string string) (l : list BLEDevice) :
  filter_loop m l = filterCandidates l ∪ m.
Proof.
  unfold filterCandidates. revert m. induction l as [|d l IH]; intros m.
  - simpl. by rewrite (left_id_L ∅ (∪)).
  - rewrite !filter_loop_cons, (IH (filter_step m d)), (IH (filter_step ∅ d)).
    destruct (filter_step_cases m d) as [[nm [Hm ->]] | [Hno ->]].
    + rewrite (filter_step_accept ∅ d nm Hm).
      rewrite (insert_union_singleton_l m), insert_empty.
      by rewrite (assoc_L (∪)).
    + destruct (filter_step_cases ∅ d) as [[nm [Hm _]] | [_ ->]].
      * by destruct (Hno nm).
      * by rewrite (right_id_L ∅ (∪)).
Qed.

(** X2: the loop composes.  Run on a dictionary that already has
    bindings, it yields the candidates of the scan laid over that
    dictionary, and the candidates of two scans one after the other are
    those of the second laid over those of the first. *)
Theorem filterCandidates_app (l1 l2 : list BLEDevice) (m : gmap string string) :
  filter_loop m l1 = filterCandidates l1 ∪ m
  ∧ filterCandidates (l1 ++ l2) = filterCandidates l2 ∪ filterCandidates l1.
Proof.
  split; [apply filter_loop_union |].
  unfold filterCandidates at 1. rewrite filter_loop_app.
  apply filter_loop_union.
Qed.

Lemma filterCandidates_dom (l : list BLEDevice) (a : string) :
  a ∈ dom (filterCandidates l) ↔
  ∃ device, device ∈ l ∧ address device = a ∧ accepted device = true.
Proof.
  rewrite elem_of_dom. split.
  - intros [nm H]. apply filterCandidates_sound in H as [d [Hin [Ha Hm]]].
    exists d. repeat split; [done.. |]. apply accepted_iff. by exists nm.
  - intros [d [Hin [<- Hacc]]]. apply accepted_iff in Hacc as [nm Hm].
    by apply (filter_loop_bound ∅ l d nm).
Qed.

Lemma filterCandidates_empty_iff (l : list BLEDevice) :
  filterCandidates l = ∅ ↔ existsb accepted l = false.
Proof.
  rewrite <- dom_empty_iff_L. split.
  - intros H. destruct (existsb accepted l) eqn:E; [| done].
    apply existsb_exists in E as [d [Hin Hacc]].
    assert (address d ∈ dom (filterCandidates l)) as Hd.
    { apply filterCandidates_dom. exists d. by rewrite list_elem_of_In. }
    rewrite H in Hd. by apply not_elem_of_empty in Hd.
  - intros H. apply set_eq. intros a. rewrite filterCandidates_dom. split.
    + intros [d [Hin [_ Hacc]]].
      assert (existsb accepted l = true) as E; [| congruence].
      apply existsb_exists. exists d. by rewrite <- list_elem_of_In.
    + by intros ?%not_elem_of_empty.
Qed.

(** X3: whatever addresses repeat in the scan, the addresses bound in the
    candidate mapping are exactly the addresses of the entries that pass
    the test, and the mapping is empty exactly when no entry passes. *)
Theorem candidate_addresses_exact (l : list BLEDevice) :
  (∀ a, a ∈ dom (filterCandidates l) ↔
        ∃ device, device ∈ l ∧ address device = a ∧ accepted device = true)
  ∧ (filterCandidates l = ∅ ↔ existsb accepted l = false).
Proof. split; [apply filterCandidates_dom | apply filterCandidates_empty_iff]. Qed.

Lemma filterCandidates_lookup_agree (l : list BLEDevice) (a nm : string) :
  addresses_agree l = true →
  filterCandidates l !! a = Some nm ↔
  ∃ device, device ∈ l ∧ address device = a ∧ matching device nm.
Proof.
  intros Hagree. split; [apply filterCandidates_sound |].
  intros [d [Hin [<- Hm]]].
  destruct (filter_loop_bound ∅ l d nm Hin Hm) as [nm' Hnm'].
  fold (filterCandidates l) in Hnm'. rewrite Hnm'. f_equal.
  destruct (filterCandidates_sound _ _ _ Hnm') as [d' [Hin' [Ha' Hm']]].
  exact (addresses_agree_spec l Hagree d' d nm' nm Hin' Hin Hm' Hm Ha').
Qed.

(** X4: when no two matching entries give one address two different
    names, the order of the scan does not matter: every rearrangement of
    the scan yields the same candidate mapping. *)
Theorem filterCandidates_order_irrelevant (l l' : list BLEDevice) :
  addresses_agree l = true →
  l ≡ₚ l' →
  filterCandidates l = filterCandidates l'.
Proof.
  intros Hagree Hperm. apply map_eq. intros a. apply option_eq. intros nm.
  rewrite (filterCandidates_lookup_agree l a nm Hagree). split.
  - intros [d [Hin [<- Hm]]].
    assert (d ∈ l') as Hin' by (by rewrite <- Hperm).
    destruct (filter_loop_bound ∅ l' d nm Hin' Hm) as [nm' Hnm'].
    fold (filterCandidates l') in Hnm'. rewrite Hnm'. f_equal.
    destruct (filterCandidates_sound _ _ _ Hnm') as [d' [Hd' [Ha' Hm']]].
    rewrite <- Hperm in Hd'.
    exact (addresses_agree_spec l Hagree d' d nm' nm Hd' Hin Hm' Hm Ha').
  - intros H. apply filterCandidates_sound in H as [d [Hin H]].
    exists d. by rewrite Hperm.
Qed.

Lemma filterCandidates_order_irrelevant_witness :
  filterCandidates
    [mkDevice "AA:BB" (Some "Mira Soak Station 1"); mkDevice "CC:DD" (Some "Mira 2")]
  = filterCandidates
      [mkDevice "CC:DD" (Some "Mira 2"); mkDevice "AA:BB" (Some "Mira Soak Station 1")].
Proof.
  apply filterCandidates_order_irrelevant; [reflexivity | apply perm_swap].
Defined.

(** X5: the candidate mapping has at most as many bindings as the scan
    has entries that pass the test, and so at most as many as the scan
    has entries. *)
Theorem filterCandidates_size_bound (l : list BLEDevice) :
  (size (filterCandidates l)
   ≤ length (filter (λ device, accepted device = true) l))%nat
  ∧ (size (filterCandidates l) ≤ length l)%nat.
Proof.
  assert (size (filterCandidates l)
          ≤ length (filter (λ device, accepted device = true) l))%nat as H.
  { induction l as [|d l IH] using rev_ind; [done |].
    unfold filterCandidates in *. rewrite filter_loop_app, filter_app, length_app.
    change (filter_loop (filter_loop ∅ l) [d])
      with (filter_step (filter_loop ∅ l) d).
    destruct (filter_step_cases (filter_loop ∅ l) d) as [[nm [Hm ->]] | [Hno ->]].
    - rewrite filter_cons_True by (apply accepted_iff; by exists nm).
      rewrite map_size_insert. simpl.
      destruct (filter_loop ∅ l !! address d); simpl; lia.
    - lia. }
  split; [done |]. etrans; [exact H | apply length_filter].
Qed.

(** ** Further properties of the flow *)

(** X6: the discovery step always returns.  Either no scan entry passes
    the test and it aborts with "no_devices_found", leaving the flow
    object alone; or it stores the candidate mapping in
    [_device_options] and shows a form without errors whose choices are
    exactly the addresses of the entries that pass, of which there is at
    least one. *)
Theorem discovery_step_outcome (devices : list BLEDevice)
    (config_flow_pairing : string → outcome (pyval * pyval))
    (self : SoakStationConfigFlow) :
  (existsb accepted devices = false
   ∧ async_step_user devices config_flow_pairing self None
     = (Returns (async_abort "no_devices_found"), self))
  ∨ (existsb accepted devices = true
     ∧ ∃ r choices,
         async_step_user devices config_flow_pairing self None
         = (Returns r, mkFlow (Some (filterCandidates devices)))
         ∧ r = show_selection_form ∅ (filterCandidates devices)
         ∧ form_options r = Some choices
         ∧ choices ≠ ∅
         ∧ ∀ a, a ∈ choices ↔
                ∃ device, device ∈ devices ∧ address device = a
                          ∧ accepted device = true).
Proof.
  destruct (existsb accepted devices) eqn:E; [right | left]; (split; [done |]).
  - assert (filterCandidates devices ≠ ∅) as Hne.
    { intros H%filterCandidates_empty_iff. congruence. }
    exists (show_selection_form ∅ (filterCandidates devices)),
           (dom (filterCandidates devices)).
    split; [by apply step_discovered |].
    repeat split; [by rewrite dom_empty_iff_L | apply filterCandidates_dom..].
  - apply filterCandidates_empty_iff in E.
    unfold async_step_user. fold (filterCandidates devices).
    by rewrite decide_True.
Qed.

Lemma selection_keeps_flow (devices : list BLEDevice)
    (config_flow_pairing : string → outcome (pyval * pyval))
    (self : SoakStationConfigFlow) (user_input : gmap string string) :
  (async_step_user devices config_flow_pairing self (Some user_input)).2 = self.
Proof.
  unfold async_step_user.
  destruct (user_input !! CONF_DEVICE) as [a|]; [| done].
  destruct (_device_options self) as [opts|]; [| done].
  destruct (opts !! a); [| done].
  destruct (config_flow_pairing a) as [[cid slot] | e]; [done |].
  by destruct (is_Exception e).
Qed.

(** X7: a selection step never changes the flow object, and it raises
    exactly in four cases: the input has no "device" key (KeyError);
    nothing was discovered before, so [_device_options] does not exist
    (AttributeError); the address is not among the discovered ones
    (KeyError); or the pairing routine raised something that is not an
    [Exception].  The three lookup errors are not turned into
    "pairing_failed". *)
Theorem selection_step_raises_iff (devices : list BLEDevice)
    (config_flow_pairing : string → outcome (pyval * pyval))
    (self : SoakStationConfigFlow) (user_input : gmap string string) (e : PyExc) :
  (async_step_user devices config_flow_pairing self (Some user_input)).2 = self
  ∧ ((async_step_user devices config_flow_pairing self (Some user_input)).1
     = Raises e
     ↔ (user_input !! CONF_DEVICE = None ∧ e = KeyError CONF_DEVICE)
       ∨ ∃ a, user_input !! CONF_DEVICE = Some a
           ∧ ((_device_options self = None
               ∧ e = AttributeError "_device_options")
              ∨ ∃ options, _device_options self = Some options
                  ∧ ((options !! a = None ∧ e = KeyError a)
                     ∨ (is_Some (options !! a)
                        ∧ config_flow_pairing a = Raises e
                        ∧ is_Exception e = false)))).
Proof.
  split; [apply selection_keeps_flow |].
  unfold async_step_user.
  destruct (user_input !! CONF_DEVICE) as [a|] eqn:Hui; simpl.
  2: { split; [intros [= <-]; by left |].
       intros [[? ?] | [? [? _]]]; by simplify_eq. }
  destruct (_device_options self) as [opts|] eqn:Hopt; simpl.
  2: { split; [intros [= <-]; right; exists a; split; [done | by left] |].
       intros [[? ?] | [? [? [[? ?] | [? [? _]]]]]]; by simplify_eq. }
  destruct (opts !! a) as [nm|] eqn:Hnm; simpl.
  2: { split.
       - intros [= <-]. right. exists a. split; [done |]. right.
         exists opts. split; [done | by left].
       - intros [[? ?] | [? [? [[? ?] | [? [? [[? ?] | [[? ?] _]]]]]]]];
           by simplify_eq. }
  destruct (config_flow_pairing a) as [[cid slot] | e'] eqn:Hp; simpl.
  { split; [done |].
    intros [[? ?] | [? [? [[? ?] | [? [? [[? ?] | [_ [? _]]]]]]]]];
      simplify_eq; congruence. }
  destruct (is_Exception e') eqn:He; simpl; split.
  - done.
  - intros [[? ?] | [? [? [[? ?] | [? [? [[? ?] | [_ [? ?]]]]]]]]];
      simplify_eq; congruence.
  - intros [= <-]. right. exists a. split; [done |]. right. exists opts.
    split; [done |]. right. by rewrite Hnm.
  - intros [[? ?] | [? [? [[? ?] | [? [? [[? ?] | [_ [? ?]]]]]]]]];
      simplify_eq; congruence.
Qed.

(** ** Properties of repeated calls *)

Lemma filterCandidates_marked (l : list BLEDevice) (a nm : string) :
  filterCandidates l !! a = Some nm → str_in MARKER nm = true.
Proof. intros H. by apply filterCandidates_sound in H as [d [_ [_ [_ H]]]]. Qed.

Lemma call_step_marked (self : SoakStationConfigFlow) (c : Call) :
  options_marked self → options_marked (call_step self c).2.
Proof.
  intros Hself. unfold call_step. destruct (call_input c) as [ui|].
  - by rewrite selection_keeps_flow.
  - unfold async_step_user. fold (filterCandidates (call_devices c)).
    destruct (decide (filterCandidates (call_devices c) = ∅)) as [? | Hne];
      [done |].
    intros options [= <-]. split; [done |]. apply filterCandidates_marked.
Qed.

Lemma call_step_entry (self : SoakStationConfigFlow) (c : Call)
    (title : string) (data : gmap string pyval) :
  options_marked self →
  (call_step self c).1 = Returns (async_create_entry title data) →
  str_in MARKER title = true ∧ data !! "device_name" = Some (PyStr title).
Proof.
  intros Hself. unfold call_step, async_step_user.
  destruct (call_input c) as [ui|].
  - destruct (ui !! CONF_DEVICE) as [a|]; [| done].
    destruct (_device_options self) as [opts|] eqn:Hopt; [| done].
    destruct (opts !! a) as [nm|] eqn:Hnm; [| done].
    destruct (call_pairing c a) as [[cid slot] | e].
    + simpl. intros [= <- <-]. split; [| done].
      destruct (Hself opts Hopt) as [_ H]. by apply (H a).
    + by destruct (is_Exception e).
  - by destruct (decide (filter_loop ∅ (call_devices c) = ∅)).
Qed.

Lemma run_flow_cons (self : SoakStationConfigFlow) (c : Call) (rest : list Call) :
  run_flow self (c :: rest)
  = ((call_step self c).1 :: (run_flow (call_step self c).2 rest).1,
     (run_flow (call_step self c).2 rest).2).
Proof.
  simpl. destruct (call_step self c) as [r self']. simpl.
  by destruct (run_flow self' rest).
Qed.

Lemma run_flow_marked (self : SoakStationConfigFlow) (calls : list Call) :
  options_marked self →
  options_marked (run_flow self calls).2
  ∧ ∀ title data,
      Returns (async_create_entry title data) ∈ (run_flow self calls).1 →
      str_in MARKER title = true ∧ data !! "device_name" = Some (PyStr title).
Proof.
  revert self. induction calls as [|c rest IH]; intros self Hself.
  - split; [done |]. intros title data H. by apply not_elem_of_nil in H.
  - rewrite run_flow_cons. simpl.
    destruct (IH _ (call_step_marked self c Hself)) as [Hend Hrest].
    split; [done |]. intros title data [H | H]%elem_of_cons.
    + by apply (call_step_entry self c).
    + by apply Hrest.
Qed.

(** X8: over any sequence of calls on a fresh flow object, with any scan
    results and any behaviour of the pairing routine, [_device_options]
    is never an empty mapping and holds only names that contain "Mira";
    so every entry the flow creates is titled with a name that contains
    "Mira" (never "Unknown"), and records that title as its
    device_name. *)
Theorem created_entries_are_marked (calls : list Call) :
  options_marked (run_flow (mkFlow None) calls).2
  ∧ ∀ title data,
      Returns (async_create_entry title data) ∈ (run_flow (mkFlow None) calls).1 →
      str_in MARKER title = true
      ∧ title ≠ "Unknown"
      ∧ data !! "device_name" = Some (PyStr title).
Proof.
  assert (options_marked (mkFlow None)) as Hinit by (by intros options).
  destruct (run_flow_marked (mkFlow None) calls Hinit) as [Hend Hall].
  split; [done |]. intros title data H.
  destruct (Hall title data H) as [Hin Hdata].
  repeat split; [done | | done]. intros ->. by rewrite marker_not_in_unknown in Hin.
Qed.

Lemma created_entries_are_marked_witness :
  str_in MARKER "Mira Soak Station 1" = true
  ∧ "Mira Soak Station 1" ≠ "Unknown"
  ∧ (<["client_slot" := PyInt 3]>
       (<["client_id" := PyInt 48879]>
          (<["device_address" := PyStr "AA:BB"]>
             (<["device_name" := PyStr "Mira Soak Station 1"]>
                (∅ : gmap string pyval)))))
      !! "device_name"
    = Some (PyStr "Mira Soak Station 1").
Proof.
  apply (proj2 (created_entries_are_marked
                  [mkCall scenario_A scenario_C_pairing None;
                   mkCall [] scenario_C_pairing (Some {[ CONF_DEVICE := "AA:BB" ]})])).
  apply list_elem_of_further, list_elem_of_here.
Defined.

(** X9: a failed pairing leaves the flow able to pair: when the same
    selection is submitted again and the routine now returns, the second
    call creates the entry, with the name recorded at discovery and the
    pair the routine returned. *)
Theorem retry_after_failed_pairing (devices1 devices2 : list BLEDevice)
    (pairing1 pairing2 : string → outcome (pyval * pyval))
    (self : SoakStationConfigFlow) (user_input options : gmap string string)
    (device_address device_name : string) (e : PyExc)
    (client_id client_slot : pyval) :
  user_input !! CONF_DEVICE = Some device_address →
  _device_options self = Some options →
  options !! device_address = Some device_name →
  pairing1 device_address = Raises e →
  pairing2 device_address = Returns (client_id, client_slot) →
  ∃ r1 data,
    run_flow self [mkCall devices1 pairing1 (Some user_input);
                   mkCall devices2 pairing2 (Some user_input)]
    = ([r1; Returns (async_create_entry device_name data)], self)
    ∧ (∀ title data', r1 ≠ Returns (async_create_entry title data'))
    ∧ data !! "device_address" = Some (PyStr device_address)
    ∧ data !! CONF_CLIENT_ID = Some client_id
    ∧ data !! CONF_CLIENT_SLOT = Some client_slot.
Proof.
  intros Hui Hopt Hname H1 H2.
  assert (∀ devices pairing,
            call_step self (mkCall devices pairing (Some user_input))
            = async_step_user devices pairing self (Some user_input)) as Hcall
    by done.
  rewrite run_flow_cons, Hcall, selection_keeps_flow.
  rewrite run_flow_cons, Hcall, selection_keeps_flow.
  rewrite !(step_selected _ _ _ _ _ _ _ Hui Hopt Hname), H1, H2.
  eexists _, _. split; [reflexivity |].
  split; [| done]. intros title data'. by destruct (is_Exception e).
Qed.

Lemma retry_after_failed_pairing_witness :
  ∃ r1 data,
    run_flow after_discovery_A
      [mkCall [] (λ _, Raises ConnectTimeout) (Some {[ CONF_DEVICE := "AA:BB" ]});
       mkCall [] scenario_C_pairing (Some {[ CONF_DEVICE := "AA:BB" ]})]
    = ([r1; Returns (async_create_entry "Mira Soak Station 1" data)],
       after_discovery_A)
    ∧ (∀ title data', r1 ≠ Returns (async_create_entry title data'))
    ∧ data !! "device_address" = Some (PyStr "AA:BB")
    ∧ data !! CONF_CLIENT_ID = Some (PyInt 48879)
    ∧ data !! CONF_CLIENT_SLOT = Some (PyInt 3).
Proof.
  apply (retry_after_failed_pairing [] [] (λ _, Raises ConnectTimeout)
           scenario_C_pairing after_discovery_A {[ CONF_DEVICE := "AA:BB" ]}
           (filterCandidates scenario_A) "AA:BB" "Mira Soak Station 1"
           ConnectTimeout (PyInt 48879) (PyInt 3));
    reflexivity.
Defined.

(** X10: discovery followed by a selection.  After a discovery step that
    found devices, selecting an address the scan offered, with a routine
    that returns, creates an entry titled with the name advertised by a
    matching scan entry at that address; selecting any other address
    raises KeyError for it, whatever the pairing routine would have
    done, and the flow keeps what discovery stored. *)
Theorem select_after_discovery (devices devices' : list BLEDevice)
    (pairing pairing' : string → outcome (pyval * pyval))
    (self : SoakStationConfigFlow) (user_input : gmap string string)
    (device_address : string) :
  existsb accepted devices = true →
  user_input !! CONF_DEVICE = Some device_address →
  (∀ nm client_id client_slot,
     filterCandidates devices !! device_address = Some nm →
     pairing' device_address = Returns (client_id, client_slot) →
     (∃ data,
        async_step_user devices' pairing'
          (async_step_user devices pairing self None).2 (Some user_input)
        = (Returns (async_create_entry nm data),
           mkFlow (Some (filterCandidates devices))))
     ∧ ∃ device, device ∈ devices ∧ address device = device_address
                 ∧ name device = Some nm)
  ∧ (device_address ∉ dom (filterCandidates devices) →
     async_step_user devices' pairing'
       (async_step_user devices pairing self None).2 (Some user_input)
     = (Raises (KeyError device_address),
        mkFlow (Some (filterCandidates devices)))).
Proof.
  intros Hsome Hui.
  assert (filterCandidates devices ≠ ∅) as Hne.
  { intros H%filterCandidates_empty_iff. congruence. }
  rewrite (step_discovered devices pairing self Hne). cbn [snd]. split.
  - intros nm cid slot Hnm Hp. split.
    + rewrite (step_selected devices' pairing'
                 (mkFlow (Some (filterCandidates devices))) user_input
                 (filterCandidates devices) device_address nm Hui eq_refl Hnm), Hp.
      by eexists.
    + apply filterCandidates_sound in Hnm as [d [Hin [Ha [Hn _]]]]. by exists d.
  - intros Hnot%not_elem_of_dom. unfold async_step_user.
    by rewrite Hui; simpl; rewrite Hnot.
Qed.

Lemma select_after_discovery_witness :
  (∀ nm client_id client_slot,
     filterCandidates scenario_A !! "CC:DD" = Some nm →
     scenario_C_pairing "CC:DD" = Returns (client_id, client_slot) →
     (∃ data,
        async_step_user [] scenario_C_pairing
          (async_step_user scenario_A scenario_C_pairing (mkFlow None) None).2
          (Some {[ CONF_DEVICE := "CC:DD" ]})
        = (Returns (async_create_entry nm data),
           mkFlow (Some (filterCandidates scenario_A))))
     ∧ ∃ device, device ∈ scenario_A ∧ address device = "CC:DD"
                 ∧ name device = Some nm)
  ∧ ("CC:DD" ∉ dom (filterCandidates scenario_A) →
     async_step_user [] scenario_C_pairing
       (async_step_user scenario_A scenario_C_pairing (mkFlow None) None).2
       (Some {[ CONF_DEVICE := "CC:DD" ]})
     = (Raises (KeyError "CC:DD"),
        mkFlow (Some (filterCandidates scenario_A)))).
Proof.
  apply (select_after_discovery scenario_A [] scenario_C_pairing
           scenario_C_pairing (mkFlow None) {[ CONF_DEVICE := "CC:DD" ]}
           "CC:DD");
    reflexivity.
Defined.
